(** * Arduino Judge: score bookkeeping, score meter and microgame dispatch

    A shallow embedding of [Arduino_Judge.ino] (the round loop, the score
    state machine, the servo score meter, the round-end LED signalling) and
    of [Microgames.ino] (the dispatcher and its six stub microgames).

    The sketch is single threaded and talks to the hardware through
    [digitalWrite], [delay], [servo.write] and a handful of sound-effect
    routines.  Each such call is recorded, in program order, in a trace of
    [Event]s carried by the [World]; the global variables the sketch writes
    ([score], [millisAtGameStart]) are fields of the same record.  A routine
    is a function from the world to a result [Res]: either it returns, or
    the firmware is restarted in the middle of it.

    Beside the score logic the file covers the four-bit LED bank
    ([setFourBitLEDs]), the fading status LED and the handshake loop of
    [initCommunication] ([fadeStatusLED]), and the two button interrupts.
    The routines of the communication layer ([tryHandshake],
    [determinePlayers], [communicateRandomNumbers]) are not among the
    sources; what they return is an input of the routine that calls them.

    Integers.  [score] and the point constants are C [int]s, declared in
    [Arduino_Judge.h].  They are modelled as [Z]; lemma
    [updateScore_no_int_overflow] shows that from every state the sketch can
    be in at the start of a round the sum computed by [updateScore] fits in
    a 16 bit [int], so no wrap-around is ever taken. *)

From Stdlib Require Import ZArith List Bool Lia.
From Stdlib Require Import Strings.Byte.
Import ListNotations.
Open Scope Z_scope.

(** ** Data model *)

(** Modelled from the spec: [enum GameResult] is declared in
    [Arduino_Judge.h], which is not among the sources.  The nine results the
    sketch and the data model name, and [OtherResult] for any other value of
    the enumeration (a communication failure, say); [GameTied] and
    [OtherResult] take the [default:] arm of the switch in [updateScore]. *)
Inductive GameResult : Type :=
| CorrectAttack
| WasCorrectlyAttacked
| IncorrectAttack
| WasIncorrectlyAttacked
| CorrectDodge
| WasCorrectlyDodged
| IncorrectDodge
| WasIncorrectlyDodged
| GameTied
| OtherResult (raw : N).

(** Modelled from the spec: [enum GameID], of the same header.  The six
    microgames, and [OtherGame] for a value that is none of the six (the
    [default:] arm of the dispatcher). *)
Inductive GameID : Type :=
| PiezoPitch
| PiezoRhythm
| LEDNumber
| LEDBrightest
| LEDFrequency
| LDRCover
| OtherGame (raw : N).

(** The pins the sketch names; their numbers are constants of the header
    and play no role here. *)
Inductive Pin : Type :=
| lowerButton
| higherButton
| fourBitLEDs (i : nat)
| whiteLED
| analogLED
| piezo
| servoPin.

Inductive Level : Type := LOW | HIGH.

(** One hardware effect. *)
Inductive Event : Type :=
| DigitalWrite (pin : Pin) (value : Level)
| Delay (ms : Z)
| ServoWrite (angle : Z)
| NoTone (pin : Pin)
| InstantOfVictorySFX (arg : bool)
| VictoryJingleSFX (arg : bool)
| GameOverSFX.

(** Routine entries that leave no mark on the hardware: which microgame the
    dispatcher entered, with which argument [handleVictory] was entered.
    The log is ghost state; no routine reads it. *)
Inductive Call : Type :=
| CallRunPiezoPitch
| CallRunPiezoRhythm
| CallRunLEDNumber
| CallRunLEDBrightest
| CallRunLEDFrequency
| CallRunLDRCover
| CallHandleVictory (didWin : bool)
| CallHandleCommunicationError.

Record World : Type := mkWorld {
  score : Z;
  millisAtGameStart : Z;
  trace : list Event;
  calls : list Call
}.

(** The world right after [initCommunication]: [score = 0], nothing done yet. *)
Definition freshWorld : World := mkWorld 0 0 [] [].

(** ** Routines as world transformers that may restart the firmware *)

Inductive Res (A : Type) : Type :=
| Ret (a : A) (w : World)
| Halt (w : World).
Arguments Ret {A} a w.
Arguments Halt {A} w.

Definition M (A : Type) : Type := World -> Res A.

Definition ret {A} (a : A) : M A := fun w => Ret a w.

Definition bind {A B} (m : M A) (k : A -> M B) : M B :=
  fun w => match m w with
           | Ret a w' => k a w'
           | Halt w' => Halt w'
           end.

Declare Scope judge_scope.
Delimit Scope judge_scope with judge.
Notation "x <- m ;; k" := (bind m (fun x => k))
  (at level 61, m at next level, right associativity) : judge_scope.
Notation "m ;; k" := (bind m (fun _ => k))
  (at level 61, right associativity) : judge_scope.
Open Scope judge_scope.

Definition emit (e : Event) : M unit :=
  fun w => Ret tt (mkWorld (score w) (millisAtGameStart w) (trace w ++ [e]) (calls w)).

Definition enter (c : Call) : M unit :=
  fun w => Ret tt (mkWorld (score w) (millisAtGameStart w) (trace w) (calls w ++ [c])).

Definition setScore (v : Z) : M unit :=
  fun w => Ret tt (mkWorld v (millisAtGameStart w) (trace w) (calls w)).

Definition getScore : M Z := fun w => Ret (score w) w.

Definition setMillisAtGameStart (v : Z) : M unit :=
  fun w => Ret tt (mkWorld (score w) v (trace w) (calls w)).

Definition restart {A} : M A := fun w => Halt w.

(** The world a routine ends in, returned or not. *)
Definition worldOf {A} (r : Res A) : World :=
  match r with Ret _ w => w | Halt w => w end.

(** ** The Arduino core's [constrain] and [map]

    Both belong to the Arduino core library, not to the sketch; they are
    written out as the core defines them. *)

(** [#define constrain(amt,low,high) ((amt)<(low)?(low):((amt)>(high)?(high):(amt)))] *)
Definition constrain (amt low high : Z) : Z :=
  if amt <? low then low else if amt >? high then high else amt.

(** [long map(long x, long in_min, long in_max, long out_min, long out_max)];
    C division truncates, hence [Z.quot]. *)
Definition map (x in_min in_max out_min out_max : Z) : Z :=
  Z.quot ((x - in_min) * (out_max - out_min)) (in_max - in_min) + out_min.

(** ** Hardware helpers of the sketch *)

Definition digitalWrite (pin : Pin) (value : Level) : M unit := emit (DigitalWrite pin value).
Definition delay (ms : Z) : M unit := emit (Delay ms).
Definition noTone (pin : Pin) : M unit := emit (NoTone pin).
Definition servo_write (angle : Z) : M unit := emit (ServoWrite angle).
Definition playInstantOfVictorySFX (arg : bool) : M unit := emit (InstantOfVictorySFX arg).
Definition playVictoryJingleSFX (arg : bool) : M unit := emit (VictoryJingleSFX arg).
Definition playGameOverSFX : M unit := emit GameOverSFX.

(** [for (int i = from; i < from + n; i++) body(i)] *)
Fixpoint forLoop (from : nat) (n : nat) (body : nat -> M unit) : M unit :=
  match n with
  | O => ret tt
  | S n' => body from ;; forLoop (S from) n' body
  end.

Definition setAllLEDs (value : Level) : M unit :=
  forLoop 0 4 (fun i => digitalWrite (fourBitLEDs i) value) ;;
  digitalWrite whiteLED value ;;
  digitalWrite analogLED value.

(** The position the score meter is driven to for a given score. *)
Definition servoPosition (score : Z) : Z :=
  let score := constrain score (-80) 80 in
  map score (-80) 80 10 170.

Definition updateServo (score : Z) : M unit :=
  servo_write (servoPosition score) ;;
  delay 200.

Definition byteGe (a b : byte) : bool := (Byte.to_N b <=? Byte.to_N a)%N.

Definition flashHigherPlayersLED (myNumber otherNumber : byte) : M unit :=
  if byteGe myNumber otherNumber then
    forLoop 0 3 (fun _ =>
      digitalWrite whiteLED HIGH ;;
      delay 250 ;;
      digitalWrite whiteLED LOW ;;
      delay 250)
  else
    delay (500 * 3).

Definition handleVictory (didWin : bool) : M unit :=
  enter (CallHandleVictory didWin) ;;
  playInstantOfVictorySFX true ;;
  digitalWrite whiteLED HIGH ;;
  playVictoryJingleSFX true ;;
  digitalWrite whiteLED LOW ;;
  playGameOverSFX ;;
  setScore 0 ;;
  s <- getScore ;;
  updateServo s.

(** ** The stub microgames ([Microgames.ino]) *)

Definition runPiezoPitch (myNumber otherNumber : byte) : M GameResult :=
  enter CallRunPiezoPitch ;; ret GameTied.

Definition runPiezoRhythm (myNumber otherNumber : byte) : M GameResult :=
  enter CallRunPiezoRhythm ;; ret GameTied.

Definition runLEDNumber (myNumber otherNumber : byte) : M GameResult :=
  enter CallRunLEDNumber ;; ret GameTied.

Definition runLEDBrightest (myNumber otherNumber : byte) : M GameResult :=
  enter CallRunLEDBrightest ;; ret GameTied.

Definition runLEDFrequency (myNumber otherNumber : byte) : M GameResult :=
  enter CallRunLEDFrequency ;; ret GameTied.

Definition runLDRCover : M GameResult :=
  enter CallRunLDRCover ;; ret GameTied.

(** Modelled from the spec: [handleCommunicationError] is defined in a file
    of the sketch that is not part of the sources at hand.  Its contract is
    that it is invoked on an unrecognised round identifier and "must not
    return normally into score logic"; the dispatcher's own comment says
    that the statement after the call is never reached.  The routine is
    entered and the firmware restarts. *)
Definition handleCommunicationError : M GameResult :=
  enter CallHandleCommunicationError ;; restart.

(** ** Vocabulary for the statements *)

(** The cues of the victory sequence, in order. *)
Definition victoryCues : list Event :=
  [ InstantOfVictorySFX true;
    DigitalWrite whiteLED HIGH;
    VictoryJingleSFX true;
    DigitalWrite whiteLED LOW;
    GameOverSFX ].

(** What one call of [updateServo] adds to the trace. *)
Definition servoCommand (score : Z) : list Event :=
  [ ServoWrite (servoPosition score); Delay 200 ].

(** Three flashes of the white LED. *)
Definition threeFlashes : list Event :=
  [ DigitalWrite whiteLED HIGH; Delay 250; DigitalWrite whiteLED LOW; Delay 250;
    DigitalWrite whiteLED HIGH; Delay 250; DigitalWrite whiteLED LOW; Delay 250;
    DigitalWrite whiteLED HIGH; Delay 250; DigitalWrite whiteLED LOW; Delay 250 ].

(** Milliseconds spent in [delay] along a trace. *)
Fixpoint totalDelay (events : list Event) : Z :=
  match events with
  | [] => 0
  | Delay ms :: rest => ms + totalDelay rest
  | _ :: rest => totalDelay rest
  end.

(** How often the white LED was switched on along a trace. *)
Fixpoint countFlashes (events : list Event) : nat :=
  match events with
  | [] => O
  | DigitalWrite whiteLED HIGH :: rest => S (countFlashes rest)
  | _ :: rest => countFlashes rest
  end.

(** How often [handleVictory] was entered with a given argument. *)
Fixpoint countVictories (didWin : bool) (log : list Call) : nat :=
  match log with
  | [] => O
  | CallHandleVictory b :: rest =>
      if Bool.eqb b didWin then S (countVictories didWin rest)
      else countVictories didWin rest
  | _ :: rest => countVictories didWin rest
  end.

(** A score strictly between the two victory thresholds. *)
Definition inPlay (score : Z) : Prop := -80 < score < 80.

(** The range of a 16 bit [int]. *)
Definition fitsInt (z : Z) : Prop := -32768 <= z <= 32767.

(** ** The four-bit LED bank and the levels the LEDs are left at *)

(** [digitalWrite] takes an integer: 0 drives the pin low, any other value
    drives it high. *)
Definition levelOf (v : Z) : Level := if v =? 0 then LOW else HIGH.

(** [value] is a [byte]; LED [i] gets bit [3 - i] of it. *)
Definition setFourBitLEDs (value : Z) : M unit :=
  forLoop 0 4 (fun i =>
    digitalWrite (fourBitLEDs i) (levelOf (Z.land (Z.shiftr value (3 - Z.of_nat i)) 1))).

Definition pinEqb (a b : Pin) : bool :=
  match a, b with
  | lowerButton, lowerButton => true
  | higherButton, higherButton => true
  | fourBitLEDs i, fourBitLEDs j => Nat.eqb i j
  | whiteLED, whiteLED => true
  | analogLED, analogLED => true
  | piezo, piezo => true
  | servoPin, servoPin => true
  | _, _ => false
  end.

(** The level an output pin is left at by a run of effects: the level of the
    last [digitalWrite] to it, and [start] if it was not written. *)
Fixpoint pinLevel (pin : Pin) (start : Level) (events : list Event) : Level :=
  match events with
  | [] => start
  | DigitalWrite p v :: rest => pinLevel pin (if pinEqb p pin then v else start) rest
  | _ :: rest => pinLevel pin start rest
  end.

Definition bitOf (l : Level) : Z := match l with LOW => 0 | HIGH => 1 end.

(** The number the bank shows after a run of effects, [fourBitLEDs 0] being
    the most significant bit; an LED never written counts as off. *)
Definition shownNumber (events : list Event) : Z :=
  8 * bitOf (pinLevel (fourBitLEDs 0) LOW events)
  + 4 * bitOf (pinLevel (fourBitLEDs 1) LOW events)
  + 2 * bitOf (pinLevel (fourBitLEDs 2) LOW events)
  + bitOf (pinLevel (fourBitLEDs 3) LOW events).

(** The six LEDs [setAllLEDs] drives. *)
Definition ledPins : list Pin :=
  [ fourBitLEDs 0; fourBitLEDs 1; fourBitLEDs 2; fourBitLEDs 3; whiteLED; analogLED ].

(** What [loop] does to the outputs right after a microgame: every LED
    off, the tone stopped. *)
Definition clearedOutputs : list Event :=
  [ DigitalWrite (fourBitLEDs 0) LOW; DigitalWrite (fourBitLEDs 1) LOW;
    DigitalWrite (fourBitLEDs 2) LOW; DigitalWrite (fourBitLEDs 3) LOW;
    DigitalWrite whiteLED LOW; DigitalWrite analogLED LOW; NoTone piezo ].

(** What [flashHigherPlayersLED] adds to the trace. *)
Definition roundEndSignal (myNumber otherNumber : byte) : list Event :=
  if byteGe myNumber otherNumber then threeFlashes else [Delay 1500].

(** ** The fading status LED of the handshake *)

(** [fadeValue] and [isGoingUpwards]: the two locals of [initCommunication]
    that [fadeStatusLED] updates through its pointer arguments. *)
Record Fade : Type := mkFade {
  fadeValue : Z;
  isGoingUpwards : bool
}.

(** The values [initCommunication] starts the fade with. *)
Definition initialFade : Fade := mkFade 1 true.

(** One call of [fadeStatusLED]: the brightness handed to
    [analogWrite(analogLED, _)], and the two variables afterwards.
    [fadeValue] is a [byte]: the doubling wraps modulo 256, the halving is
    C's division. *)
Definition fadeStatusLED (f : Fade) : Z * Fade :=
  (fadeValue f,
   if isGoingUpwards f then
     let v := (fadeValue f * 2) mod 256 in
     if v =? 0 then mkFade 255 false else mkFade v (isGoingUpwards f)
   else
     let v := Z.quot (fadeValue f) 2 in
     if v =? 0 then mkFade 1 true else mkFade v (isGoingUpwards f)).

(** The variables after [n] calls. *)
Fixpoint fadeSteps (n : nat) (f : Fade) : Fade :=
  match n with
  | O => f
  | S n' => fadeSteps n' (snd (fadeStatusLED f))
  end.

(** The brightnesses written by [n] calls. *)
Fixpoint fadeWrites (n : nat) (f : Fade) : list Z :=
  match n with
  | O => []
  | S n' => fst (fadeStatusLED f) :: fadeWrites n' (snd (fadeStatusLED f))
  end.

(** The [while (!handshakeDone)] loop of [initCommunication].  [answers]
    are the results of the successive calls of [tryHandshake]; the loop runs
    to the first [true].  The result is the brightnesses written and the
    variables left, or [None] when the answers end before the handshake is
    done. *)
Fixpoint awaitHandshake (answers : list bool) (f : Fade) : option (list Z * Fade) :=
  match answers with
  | [] => None
  | handshakeDone :: rest =>
      let (written, f') := fadeStatusLED f in
      if handshakeDone then Some ([written], f')
      else match awaitHandshake rest f' with
           | Some (later, f'') => Some (written :: later, f'')
           | None => None
           end
  end.

(** One period of the fade. *)
Definition fadeCycle : list Z :=
  [1; 2; 4; 8; 16; 32; 64; 128; 255; 127; 63; 31; 15; 7; 3; 1].

Definition fadeEqb (f g : Fade) : bool :=
  (fadeValue f =? fadeValue g) && Bool.eqb (isGoingUpwards f) (isGoingUpwards g).

(** Whether [initialFade] is met within [n] calls. *)
Fixpoint meetsInitialFade (n : nat) (f : Fade) : bool :=
  fadeEqb f initialFade ||
  match n with
  | O => false
  | S n' => meetsInitialFade n' (snd (fadeStatusLED f))
  end.

(** ** The button interrupts *)

(** The two service routines. *)
Inductive ISR : Type := LowerISR | HigherISR.

(** The variables the service routines write, and which routine, if any, is
    attached to each button's interrupt. *)
Record Buttons : Type := mkButtons {
  lowerButtonPressed : bool;
  higherButtonPressed : bool;
  millisAtButtonPress : Z;
  lowerVector : option ISR;
  higherVector : option ISR
}.

Definition enableInterrupts (b : Buttons) : Buttons :=
  mkButtons (lowerButtonPressed b) (higherButtonPressed b) (millisAtButtonPress b)
            (Some LowerISR) (Some HigherISR).

Definition disableInterrupts (b : Buttons) : Buttons :=
  mkButtons (lowerButtonPressed b) (higherButtonPressed b) (millisAtButtonPress b)
            None None.

(** [now] is what [millis()] reads when the routine runs. *)
Definition lowerButtonPressedInterrupt (now : Z) (b : Buttons) : Buttons :=
  disableInterrupts
    (mkButtons true false now (lowerVector b) (higherVector b)).

Definition higherButtonPressedInterrupt (now : Z) (b : Buttons) : Buttons :=
  disableInterrupts
    (mkButtons false true now (lowerVector b) (higherVector b)).

Definition runISR (isr : ISR) (now : Z) (b : Buttons) : Buttons :=
  match isr with
  | LowerISR => lowerButtonPressedInterrupt now b
  | HigherISR => higherButtonPressedInterrupt now b
  end.

(** A falling edge on a pin at time [now]: the attached routine runs, if
    there is one. *)
Definition fallingEdge (pin : Pin) (now : Z) (b : Buttons) : Buttons :=
  match pin with
  | lowerButton =>
      match lowerVector b with Some isr => runISR isr now b | None => b end
  | higherButton =>
      match higherVector b with Some isr => runISR isr now b | None => b end
  | _ => b
  end.

(** Falling edges one after the other. *)
Fixpoint fallingEdges (edges : list (Pin * Z)) (b : Buttons) : Buttons :=
  match edges with
  | [] => b
  | (pin, now) :: rest => fallingEdges rest (fallingEdge pin now b)
  end.

Section Firmware.

(** The point constants of [Arduino_Judge.h]. *)
Variables correctAttackPoints incorrectAttackPoints : Z.
Variables correctDodgePoints incorrectDodgePoints : Z.

(** [millis()]: the timer's reading, whatever it is, after the effects
    performed so far. *)
Variable millis : list Event -> Z.

(** The [switch] of [updateScore]. *)
Definition applyResult (result : GameResult) : M unit :=
  s <- getScore ;;
  match result with
  | CorrectAttack => setScore (s + correctAttackPoints)
  | WasCorrectlyAttacked => setScore (s - correctAttackPoints)
  | IncorrectAttack => setScore (s - incorrectAttackPoints)
  | WasIncorrectlyAttacked => setScore (s + incorrectAttackPoints)
  | CorrectDodge => setScore (s + correctDodgePoints)
  | WasCorrectlyDodged => setScore (s - correctDodgePoints)
  | IncorrectDodge => setScore (s - incorrectDodgePoints)
  | WasIncorrectlyDodged => setScore (s + incorrectDodgePoints)
  | _ => ret tt
  end.

(** The two [if]s that close [updateScore]. *)
Definition checkThresholds : M unit :=
  s <- getScore ;;
  if s >=? 80 then handleVictory true
  else if s <=? -80 then handleVictory false
  else ret tt.

Definition updateScore (result : GameResult) : M unit :=
  applyResult result ;;
  (s <- getScore ;; updateServo s) ;;
  checkThresholds.

Definition runMicrogame (game : GameID) (myNumber otherNumber : byte) : M GameResult :=
  (fun w => setMillisAtGameStart (millis (trace w)) w) ;;
  match game with
  | PiezoPitch => runPiezoPitch myNumber otherNumber
  | PiezoRhythm => runPiezoRhythm myNumber otherNumber
  | LEDNumber => runPiezoRhythm myNumber otherNumber
  | LEDBrightest => runLEDBrightest myNumber otherNumber
  | LEDFrequency => runLEDFrequency myNumber otherNumber
  | LDRCover => runLDRCover
  | OtherGame _ => handleCommunicationError
  end.

(** One turn of [loop], from the call of the dispatcher on.  The game and
    the two numbers are what [decideOnGame] and
    [communicateRandomNumbers] delivered before the count-in.  The head of
    the turn (those two calls, [getSharedRandomNumber] and the count-in
    [playCountdownSFX]) belongs to files that are not among the sources and
    is not part of this definition, so the trace leaves out whatever the
    head does. *)
Definition loop (currentGame : GameID) (myNumber otherNumber : byte) : M unit :=
  result <- runMicrogame currentGame myNumber otherNumber ;;
  setAllLEDs LOW ;;
  noTone piezo ;;
  updateScore result ;;
  flashHigherPlayersLED myNumber otherNumber.

(** Rounds played one after the other: [updateScore] on each result. *)
Fixpoint updateScores (results : list GameResult) : M unit :=
  match results with
  | [] => ret tt
  | result :: rest => updateScore result ;; updateScores rest
  end.

(** ** The outcome table as the specification gives it *)

Definition deltaTable (result : GameResult) : Z :=
  match result with
  | CorrectAttack => correctAttackPoints
  | WasCorrectlyAttacked => - correctAttackPoints
  | IncorrectAttack => - incorrectAttackPoints
  | WasIncorrectlyAttacked => incorrectAttackPoints
  | CorrectDodge => correctDodgePoints
  | WasCorrectlyDodged => - correctDodgePoints
  | IncorrectDodge => - incorrectDodgePoints
  | WasIncorrectlyDodged => incorrectDodgePoints
  | _ => 0
  end.

(** The partner of a result in its pair: what the other board reports for
    the same round. *)
Definition mirror (result : GameResult) : GameResult :=
  match result with
  | CorrectAttack => WasCorrectlyAttacked
  | WasCorrectlyAttacked => CorrectAttack
  | IncorrectAttack => WasIncorrectlyAttacked
  | WasIncorrectlyAttacked => IncorrectAttack
  | CorrectDodge => WasCorrectlyDodged
  | WasCorrectlyDodged => CorrectDodge
  | IncorrectDodge => WasIncorrectlyDodged
  | WasIncorrectlyDodged => IncorrectDodge
  | other => other
  end.

(** Sum of the table's deltas over a run of rounds. *)
Fixpoint totalDelta (results : list GameResult) : Z :=
  match results with
  | [] => 0
  | result :: rest => deltaTable result + totalDelta rest
  end.

(** The world with the round's start time recorded. *)
Definition stamped (w : World) : World :=
  mkWorld (score w) (millis (trace w)) (trace w) (calls w).

(** The world [updateScore] ends in, by the score [n] that the table gives. *)
Definition afterRound (w : World) (n : Z) : World :=
  if n >=? 80 then
    mkWorld 0 (millisAtGameStart w)
            (trace w ++ servoCommand n ++ victoryCues ++ servoCommand 0)
            (calls w ++ [CallHandleVictory true])
  else if n <=? -80 then
    mkWorld 0 (millisAtGameStart w)
            (trace w ++ servoCommand n ++ victoryCues ++ servoCommand 0)
            (calls w ++ [CallHandleVictory false])
  else
    mkWorld n (millisAtGameStart w) (trace w ++ servoCommand n) (calls w).

(** Turns of [loop] one after the other, each from the call of the
    dispatcher on and with the game and the two numbers delivered for it. *)
Fixpoint turns (schedule : list (GameID * byte * byte)) : M unit :=
  match schedule with
  | [] => ret tt
  | (game, myNumber, otherNumber) :: rest =>
      loop game myNumber otherNumber ;; turns rest
  end.

(** One of the six games the dispatcher has a case for. *)
Definition isKnownGame (game : GameID) : bool :=
  match game with
  | OtherGame _ => false
  | _ => true
  end.

(** ** The score meter *)

Lemma constrain_clamps (s : Z) : constrain s (-80) 80 = Z.max (-80) (Z.min 80 s).
Proof.
  unfold constrain.
  destruct (Z.ltb_spec s (-80)); [lia|].
  destruct (s >? 80) eqn:E; [apply Z.gtb_lt in E; lia|].
  assert (s <= 80) by (destruct (Z.gtb_spec s 80); [discriminate | lia]).
  lia.
Qed.

Lemma servoPosition_shift (s : Z) : servoPosition s = constrain s (-80) 80 + 90.
Proof.
  unfold servoPosition, map.
  replace (80 - -80) with 160 by reflexivity.
  replace (170 - 10) with 160 by reflexivity.
  rewrite Z.quot_mul by lia. lia.
Qed.

Lemma updateServo_run (s : Z) (w : World) :
  updateServo s w =
  Ret tt (mkWorld (score w) (millisAtGameStart w) (trace w ++ servoCommand s) (calls w)).
Proof.
  unfold updateServo, servo_write, delay, emit, bind, servoCommand; simpl.
  now rewrite <- app_assoc.
Qed.

(** C3.  Whatever the score, the meter is driven to the score clamped to
    [-80, 80] and then remapped linearly from [-80, 80] onto [10, 170]: the
    position is the clamped score plus 90, it lies in [10, 170], and the
    scores -80, 0 and 80 give the positions 10, 90 and 170.  [updateServo]
    writes exactly that position to the servo and then waits 200 ms. *)
Theorem updateServo_clamps_then_remaps (s : Z) (w : World) :
  servoPosition s = map (constrain s (-80) 80) (-80) 80 10 170
  /\ constrain s (-80) 80 = Z.max (-80) (Z.min 80 s)
  /\ servoPosition s = Z.max (-80) (Z.min 80 s) + 90
  /\ 10 <= servoPosition s <= 170
  /\ servoPosition (-80) = 10
  /\ servoPosition 0 = 90
  /\ servoPosition 80 = 170
  /\ updateServo s w =
     Ret tt (mkWorld (score w) (millisAtGameStart w)
                     (trace w ++ [ServoWrite (servoPosition s); Delay 200]) (calls w)).
Proof.
  pose proof (servoPosition_shift s) as Hs.
  pose proof (constrain_clamps s) as Hc.
  split; [reflexivity|].
  split; [exact Hc|].
  split; [lia|].
  split; [lia|].
  repeat (split; [reflexivity|]).
  apply updateServo_run.
Qed.

(** ** The score state machine *)

Lemma applyResult_run (result : GameResult) (w : World) :
  applyResult result w =
  Ret tt (mkWorld (score w + deltaTable result) (millisAtGameStart w) (trace w) (calls w)).
Proof.
  destruct w as [s m t c].
  destruct result; unfold applyResult, bind, getScore, setScore, ret; simpl;
    f_equal; f_equal; lia.
Qed.

Lemma handleVictory_run (didWin : bool) (w : World) :
  handleVictory didWin w =
  Ret tt (mkWorld 0 (millisAtGameStart w)
                  (trace w ++ victoryCues ++ servoCommand 0)
                  (calls w ++ [CallHandleVictory didWin])).
Proof.
  unfold handleVictory, enter, playInstantOfVictorySFX, playVictoryJingleSFX,
    playGameOverSFX, digitalWrite, setScore, getScore, bind, emit; simpl.
  rewrite updateServo_run; simpl.
  unfold victoryCues. now rewrite <- !app_assoc.
Qed.

Lemma updateScore_run (result : GameResult) (w : World) :
  updateScore result w = Ret tt (afterRound w (score w + deltaTable result)).
Proof.
  unfold updateScore, bind. rewrite applyResult_run.
  unfold getScore; cbn [score]. rewrite updateServo_run.
  unfold checkThresholds, bind, getScore, afterRound; cbn [score].
  destruct (score w + deltaTable result >=? 80).
  - rewrite handleVictory_run; cbn. now rewrite <- app_assoc.
  - destruct (score w + deltaTable result <=? -80).
    + rewrite handleVictory_run; cbn. now rewrite <- app_assoc.
    + reflexivity.
Qed.

Lemma afterRound_score (w : World) (n : Z) :
  score (afterRound w n) = if (n >=? 80) || (n <=? -80) then 0 else n.
Proof.
  unfold afterRound.
  destruct (n >=? 80); [reflexivity|].
  destruct (n <=? -80); reflexivity.
Qed.

Lemma afterRound_in_play (w : World) (n : Z) : inPlay (score (afterRound w n)).
Proof.
  rewrite afterRound_score. unfold inPlay.
  destruct (Z.geb_spec n 80); simpl; [lia|].
  destruct (Z.leb_spec n (-80)); lia.
Qed.

Lemma afterRound_quiet (w : World) (n : Z) :
  inPlay n ->
  afterRound w n = mkWorld n (millisAtGameStart w) (trace w ++ servoCommand n) (calls w).
Proof.
  unfold inPlay, afterRound; intros H.
  destruct (Z.geb_spec n 80); [lia|].
  destruct (Z.leb_spec n (-80)); [lia|reflexivity].
Qed.

Lemma afterRound_won (w : World) (n : Z) :
  80 <= n ->
  afterRound w n =
  mkWorld 0 (millisAtGameStart w)
          (trace w ++ servoCommand n ++ victoryCues ++ servoCommand 0)
          (calls w ++ [CallHandleVictory true]).
Proof.
  unfold afterRound; intros H.
  destruct (Z.geb_spec n 80); [reflexivity|lia].
Qed.

(** C1.  The [switch] of [updateScore] adds to the score exactly the delta
    the table gives for the result, and touches nothing else; the rest of
    [updateScore] (servo, thresholds) runs on that sum.  From a score of 0,
    [CorrectAttack] gives [correctAttackPoints] and [WasIncorrectlyDodged]
    gives [incorrectDodgePoints]. *)
Theorem updateScore_adds_table_delta (result : GameResult) (w : World) :
  applyResult result w =
    Ret tt (mkWorld (score w + deltaTable result) (millisAtGameStart w) (trace w) (calls w))
  /\ updateScore result w = Ret tt (afterRound w (score w + deltaTable result))
  /\ deltaTable CorrectAttack = correctAttackPoints
  /\ deltaTable WasCorrectlyAttacked = - correctAttackPoints
  /\ deltaTable IncorrectAttack = - incorrectAttackPoints
  /\ deltaTable WasIncorrectlyAttacked = incorrectAttackPoints
  /\ deltaTable CorrectDodge = correctDodgePoints
  /\ deltaTable WasCorrectlyDodged = - correctDodgePoints
  /\ deltaTable IncorrectDodge = - incorrectDodgePoints
  /\ deltaTable WasIncorrectlyDodged = incorrectDodgePoints
  /\ deltaTable GameTied = 0
  /\ (forall raw, deltaTable (OtherResult raw) = 0)
  /\ score (worldOf (applyResult CorrectAttack freshWorld)) = correctAttackPoints
  /\ score (worldOf (applyResult WasIncorrectlyDodged freshWorld)) = incorrectDodgePoints.
Proof.
  split; [apply applyResult_run|].
  split; [apply updateScore_run|].
  do 9 (split; [reflexivity|]).
  split; [intros raw; reflexivity|].
  rewrite !applyResult_run. split; reflexivity.
Qed.

Lemma mirror_delta (result : GameResult) :
  deltaTable (mirror result) = - deltaTable result.
Proof. destruct result; simpl; lia. Qed.

(** C4.  The two members of a pair have opposite deltas, and a round with
    one member followed by a round with the other, started from a score of
    0, ends with a score of 0.  [result] ranges over both members of each
    of the four pairs, so either order is covered. *)
Theorem mirrored_results_cancel (result : GameResult) :
  deltaTable (mirror result) = - deltaTable result
  /\ score (worldOf ((applyResult result ;; applyResult (mirror result)) freshWorld)) = 0
  /\ score (worldOf (updateScores [result; mirror result] freshWorld)) = 0.
Proof.
  pose proof (mirror_delta result) as Hm.
  split; [exact Hm|]. split.
  - unfold bind. rewrite applyResult_run, applyResult_run. cbn. lia.
  - cbn [updateScores]. unfold bind, ret.
    rewrite updateScore_run, updateScore_run. cbn [worldOf].
    rewrite !afterRound_score. rewrite Hm. cbn [score freshWorld].
    set (d := deltaTable result).
    destruct (Z.geb_spec (0 + d) 80); destruct (Z.leb_spec (0 + d) (-80)); cbn;
      repeat match goal with
             | |- context [?a >=? ?b] => destruct (Z.geb_spec a b)
             | |- context [?a <=? ?b] => destruct (Z.leb_spec a b)
             end; cbn; lia.
Qed.

(** C7.  In every call of [updateScore] the servo is commanded with the
    score as it is after the delta, in a world in which the thresholds have
    not been looked at yet: [updateScore] is the threshold check run from
    that world.  The command is there whether or not a threshold is
    reached; what follows it in the trace is nothing, or the victory
    sequence. *)
Theorem updateScore_commands_servo_before_check (result : GameResult) (w : World) :
  let n := score w + deltaTable result in
  let shown :=
    mkWorld n (millisAtGameStart w)
            (trace w ++ [ServoWrite (servoPosition n); Delay 200]) (calls w) in
  (applyResult result ;; (s <- getScore ;; updateServo s)) w = Ret tt shown
  /\ updateScore result w = checkThresholds shown
  /\ exists w' rest,
       updateScore result w = Ret tt w'
       /\ trace w' = trace w ++ ServoWrite (servoPosition n) :: Delay 200 :: rest
       /\ rest = if (n >=? 80) || (n <=? -80) then victoryCues ++ servoCommand 0 else [].
Proof.
  intros n shown.
  assert (H1 : (applyResult result ;; (s <- getScore ;; updateServo s)) w = Ret tt shown).
  { unfold bind. rewrite applyResult_run. unfold getScore; cbn [score].
    now rewrite updateServo_run. }
  split; [exact H1|]. split.
  - rewrite updateScore_run. fold n.
    unfold checkThresholds, bind, getScore, afterRound, shown; cbn [score].
    destruct (n >=? 80); [|destruct (n <=? -80)];
      try rewrite handleVictory_run; cbn; try rewrite <- app_assoc; reflexivity.
  - rewrite updateScore_run. fold n.
    exists (afterRound w n).
    exists (if (n >=? 80) || (n <=? -80) then victoryCues ++ servoCommand 0 else []).
    split; [reflexivity|]. split; [|reflexivity].
    unfold afterRound.
    destruct (n >=? 80); [reflexivity|].
    destruct (n <=? -80); reflexivity.
Qed.

(** C9.  [updateScore] always returns, and the score it leaves is strictly
    between the thresholds: -80 < score < 80.  It is so in one of three
    ways, told apart by the score [n] after the delta: [n] is itself
    strictly between the thresholds, it is kept and [handleVictory] is not
    entered; or [n] is at least 80, [handleVictory true] is entered, runs
    its cues, and resets the score to 0 before the servo is driven to the
    position of score 0; or [n] is at most -80 and the same happens with
    [handleVictory false]. *)
Theorem updateScore_leaves_score_in_play (result : GameResult) (w : World) :
  let n := score w + deltaTable result in
  exists w',
    updateScore result w = Ret tt w'
    /\ -80 < score w' < 80
    /\ ((-80 < n < 80
         /\ score w' = n
         /\ calls w' = calls w
         /\ trace w' = trace w ++ [ServoWrite (servoPosition n); Delay 200])
        \/ (80 <= n
            /\ score w' = 0
            /\ calls w' = calls w ++ [CallHandleVictory true]
            /\ trace w' = trace w ++ [ServoWrite (servoPosition n); Delay 200]
                                  ++ victoryCues ++ [ServoWrite 90; Delay 200])
        \/ (n <= -80
            /\ score w' = 0
            /\ calls w' = calls w ++ [CallHandleVictory false]
            /\ trace w' = trace w ++ [ServoWrite (servoPosition n); Delay 200]
                                  ++ victoryCues ++ [ServoWrite 90; Delay 200])).
Proof.
  intros n. exists (afterRound w n).
  split; [apply updateScore_run|].
  split; [apply afterRound_in_play|].
  unfold afterRound.
  destruct (Z.geb_spec n 80) as [Hwon|Hnot].
  - right; left. repeat split; try reflexivity; lia.
  - destruct (Z.leb_spec n (-80)) as [Hlost|Hin].
    + right; right. repeat split; try reflexivity; lia.
    + left. repeat split; try reflexivity; lia.
Qed.

(** C10.  [handleVictory true] and [handleVictory false] do the same to the
    hardware and to the sketch's variables: the same five cues in the same
    order, then the score set to 0 and the servo driven to the position of
    score 0.  Only the ghost call log tells the two calls apart. *)
Theorem handleVictory_ignores_didWin (w : World) :
  exists won lost,
    handleVictory true w = Ret tt won
    /\ handleVictory false w = Ret tt lost
    /\ trace won =
       trace w ++ [ InstantOfVictorySFX true; DigitalWrite whiteLED HIGH;
                    VictoryJingleSFX true; DigitalWrite whiteLED LOW; GameOverSFX;
                    ServoWrite 90; Delay 200 ]
    /\ trace lost = trace won
    /\ score won = 0
    /\ score lost = 0
    /\ millisAtGameStart lost = millisAtGameStart won.
Proof.
  eexists; eexists.
  split; [apply handleVictory_run|].
  split; [apply handleVictory_run|].
  repeat split.
Qed.

(** ** Round-end signalling *)

Lemma flashHigherPlayersLED_run (myNumber otherNumber : byte) (w : World) :
  exists added,
    flashHigherPlayersLED myNumber otherNumber w =
    Ret tt (mkWorld (score w) (millisAtGameStart w) (trace w ++ added) (calls w)).
Proof.
  unfold flashHigherPlayersLED.
  destruct (byteGe myNumber otherNumber).
  - exists threeFlashes.
    cbv [forLoop digitalWrite delay emit bind ret
         score millisAtGameStart trace calls threeFlashes].
    rewrite <- !app_assoc. reflexivity.
  - exists [Delay 1500]. reflexivity.
Qed.

(** C8.  When [myNumber >= otherNumber] (a tie included) the white LED is
    flashed three times, 250 ms on and 250 ms off each; otherwise nothing is
    flashed and the routine waits.  Either way 1500 ms are spent. *)
Theorem flashHigherPlayersLED_flashes_or_waits (myNumber otherNumber : byte) (w : World) :
  exists added,
    flashHigherPlayersLED myNumber otherNumber w =
      Ret tt (mkWorld (score w) (millisAtGameStart w) (trace w ++ added) (calls w))
    /\ added = (if (Byte.to_N otherNumber <=? Byte.to_N myNumber)%N
                then threeFlashes else [Delay 1500])
    /\ totalDelay added = 1500
    /\ countFlashes added =
       (if (Byte.to_N otherNumber <=? Byte.to_N myNumber)%N then 3%nat else 0%nat)
    /\ flashHigherPlayersLED myNumber myNumber w =
       Ret tt (mkWorld (score w) (millisAtGameStart w) (trace w ++ threeFlashes) (calls w)).
Proof.
  assert (Hflash : forall a b, byteGe a b = true ->
            flashHigherPlayersLED a b w =
            Ret tt (mkWorld (score w) (millisAtGameStart w) (trace w ++ threeFlashes) (calls w))).
  { intros a b E. unfold flashHigherPlayersLED. rewrite E.
    cbv [forLoop digitalWrite delay emit bind ret
         score millisAtGameStart trace calls threeFlashes].
    rewrite <- !app_assoc. reflexivity. }
  exists (if (Byte.to_N otherNumber <=? Byte.to_N myNumber)%N then threeFlashes else [Delay 1500]).
  split; [|split; [reflexivity|]].
  - destruct (Byte.to_N otherNumber <=? Byte.to_N myNumber)%N eqn:E.
    + apply Hflash. unfold byteGe. exact E.
    + unfold flashHigherPlayersLED, byteGe. rewrite E. reflexivity.
  - split; [|split].
    + destruct (Byte.to_N otherNumber <=? Byte.to_N myNumber)%N; reflexivity.
    + destruct (Byte.to_N otherNumber <=? Byte.to_N myNumber)%N; reflexivity.
    + apply Hflash. unfold byteGe. apply N.leb_refl.
Qed.

(** ** Victory *)

Lemma updateScores_first_crossing (results : list GameResult) :
  forall w,
    inPlay (score w) ->
    (forall k, (k < length results)%nat ->
               inPlay (score w + totalDelta (firstn k results))) ->
    80 <= score w + totalDelta results ->
    exists w',
      updateScores results w = Ret tt w'
      /\ calls w' = calls w ++ [CallHandleVictory true]
      /\ score w' = 0.
Proof.
  induction results as [|result rest IH]; intros w Hw Hprefix Htotal.
  - unfold inPlay in Hw. cbn in Htotal. lia.
  - cbn [updateScores]. unfold bind. rewrite updateScore_run.
    cbn [totalDelta] in Htotal.
    destruct rest as [|next rest'].
    + cbn in Htotal. rewrite afterRound_won by lia.
      eexists; split; [reflexivity|]. split; reflexivity.
    + assert (Hstep : inPlay (score w + deltaTable result)).
      { specialize (Hprefix 1%nat). cbn in Hprefix.
        replace (score w + deltaTable result)
          with (score w + (deltaTable result + 0)) by lia.
        apply Hprefix. lia. }
      rewrite afterRound_quiet by exact Hstep.
      destruct (IH (mkWorld (score w + deltaTable result) (millisAtGameStart w)
                            (trace w ++ servoCommand (score w + deltaTable result))
                            (calls w))) as [w' [Hrun [Hcalls Hscore]]].
      * exact Hstep.
      * intros k Hk. cbn [score].
        specialize (Hprefix (S k)). cbn [firstn totalDelta] in Hprefix.
        replace (score w + deltaTable result + totalDelta (firstn k (next :: rest')))
          with (score w + (deltaTable result + totalDelta (firstn k (next :: rest')))) by lia.
        apply Hprefix. cbn [length] in *. lia.
      * cbn [score]. lia.
      * exists w'. split; [exact Hrun|]. split; [exact Hcalls|exact Hscore].
Qed.

(** C2, as amended.  In one round: when the score after the delta is at
    least 80, [handleVictory] is entered once, with [true]; when it is at
    most -80, once, with [false]; otherwise not at all; and when it is
    entered the round ends with the score at 0 and the servo driven to the
    position of score 0.  Over a run of rounds started from a score of 0 in
    which the running total stays strictly between -80 and 80 before the
    last round and is at least 80 with it, [handleVictory] is entered
    exactly once, with [true], and the score is 0 afterwards. *)
Theorem updateScore_declares_one_victory :
  (forall (result : GameResult) (w : World),
      let n := score w + deltaTable result in
      exists w',
        updateScore result w = Ret tt w'
        /\ calls w' = calls w ++
             (if n >=? 80 then [CallHandleVictory true]
              else if n <=? -80 then [CallHandleVictory false]
              else [])
        /\ score w' = (if (n >=? 80) || (n <=? -80) then 0 else n)
        /\ trace w' = trace w ++ servoCommand n ++
             (if (n >=? 80) || (n <=? -80)
              then victoryCues ++ [ServoWrite 90; Delay 200] else []))
  /\ (forall results : list GameResult,
        (forall k, (k < length results)%nat -> inPlay (totalDelta (firstn k results))) ->
        80 <= totalDelta results ->
        exists w',
          updateScores results freshWorld = Ret tt w'
          /\ calls w' = [CallHandleVictory true]
          /\ countVictories true (calls w') = 1%nat
          /\ countVictories false (calls w') = 0%nat
          /\ score w' = 0).
Proof.
  split.
  - intros result w n. exists (afterRound w n).
    split; [apply updateScore_run|].
    unfold afterRound.
    destruct (n >=? 80); [|destruct (n <=? -80)]; cbn;
      rewrite ?app_nil_r; repeat split; reflexivity.
  - intros results Hprefix Htotal.
    destruct (updateScores_first_crossing results freshWorld)
      as [w' [Hrun [Hcalls Hscore]]].
    + unfold inPlay; cbn; lia.
    + intros k Hk. cbn [score freshWorld]. rewrite Z.add_0_l. now apply Hprefix.
    + cbn [score freshWorld]. lia.
    + exists w'. cbn in Hcalls. rewrite Hcalls.
      split; [exact Hrun|]. repeat split; assumption.
Qed.

(** ** The dispatcher *)

Lemma runMicrogame_from_stamped (game : GameID) (myNumber otherNumber : byte) (w : World) :
  runMicrogame game myNumber otherNumber w =
  match game with
  | PiezoPitch => runPiezoPitch myNumber otherNumber (stamped w)
  | PiezoRhythm => runPiezoRhythm myNumber otherNumber (stamped w)
  | LEDNumber => runPiezoRhythm myNumber otherNumber (stamped w)
  | LEDBrightest => runLEDBrightest myNumber otherNumber (stamped w)
  | LEDFrequency => runLEDFrequency myNumber otherNumber (stamped w)
  | LDRCover => runLDRCover (stamped w)
  | OtherGame _ => handleCommunicationError (stamped w)
  end.
Proof. destruct game; reflexivity. Qed.

(** The five games whose case names the routine of the same name. *)
Lemma runMicrogame_enters_named_routine (myNumber otherNumber : byte) (w : World) :
  runMicrogame PiezoPitch myNumber otherNumber w = runPiezoPitch myNumber otherNumber (stamped w)
  /\ runMicrogame PiezoRhythm myNumber otherNumber w = runPiezoRhythm myNumber otherNumber (stamped w)
  /\ runMicrogame LEDBrightest myNumber otherNumber w = runLEDBrightest myNumber otherNumber (stamped w)
  /\ runMicrogame LEDFrequency myNumber otherNumber w = runLEDFrequency myNumber otherNumber (stamped w)
  /\ runMicrogame LDRCover myNumber otherNumber w = runLDRCover (stamped w).
Proof. repeat split. Qed.

(** C5, at [LEDNumber].  The dispatcher enters [runPiezoRhythm], not
    [runLEDNumber]: its result is the rhythm routine's, the call log ends
    with the rhythm routine's entry, and [runLEDNumber] is not entered. *)
Theorem runMicrogame_LEDNumber_enters_rhythm (myNumber otherNumber : byte) (w : World) :
  runMicrogame LEDNumber myNumber otherNumber w =
    runPiezoRhythm myNumber otherNumber (stamped w)
  /\ runMicrogame LEDNumber myNumber otherNumber w <>
    runLEDNumber myNumber otherNumber (stamped w)
  /\ runMicrogame LEDNumber myNumber otherNumber w =
    Ret GameTied (mkWorld (score w) (millis (trace w)) (trace w)
                          (calls w ++ [CallRunPiezoRhythm])).
Proof.
  split; [reflexivity|]. split; [|reflexivity].
  cbv [runMicrogame runPiezoRhythm runLEDNumber stamped setMillisAtGameStart
       enter bind ret score millisAtGameStart trace calls].
  intros H. injection H as H.
  apply app_inv_head in H. discriminate H.
Qed.

(** C6.  On a round identifier that is none of the six, the dispatcher
    enters [handleCommunicationError] and does not return: the turn of
    [loop] stops there, in the very world the dispatcher stopped in.
    Nothing of the rest of the turn has run: the score and the trace are
    those of the start of the turn, and [handleVictory] has not been
    entered. *)
Theorem runMicrogame_unknown_game_restarts
    (raw : N) (myNumber otherNumber : byte) (w : World) :
  let stopped :=
    mkWorld (score w) (millis (trace w)) (trace w)
            (calls w ++ [CallHandleCommunicationError]) in
  runMicrogame (OtherGame raw) myNumber otherNumber w = Halt stopped
  /\ loop (OtherGame raw) myNumber otherNumber w = Halt stopped
  /\ score (worldOf (loop (OtherGame raw) myNumber otherNumber w)) = score w
  /\ trace (worldOf (loop (OtherGame raw) myNumber otherNumber w)) = trace w.
Proof.
  intros stopped.
  assert (H : runMicrogame (OtherGame raw) myNumber otherNumber w = Halt stopped)
    by reflexivity.
  split; [exact H|].
  assert (L : loop (OtherGame raw) myNumber otherNumber w = Halt stopped).
  { unfold loop. unfold bind at 1. rewrite H. reflexivity. }
  split; [exact L|]. rewrite L. split; reflexivity.
Qed.

Lemma afterRound_trace (w : World) (n : Z) :
  exists rest, trace (afterRound w n) = trace w ++ servoCommand n ++ rest.
Proof.
  unfold afterRound.
  destruct (n >=? 80); [|destruct (n <=? -80)]; cbn [trace].
  - now exists (victoryCues ++ servoCommand 0).
  - now exists (victoryCues ++ servoCommand 0).
  - exists []. now rewrite app_nil_r.
Qed.

Lemma runMicrogame_known_game (game : GameID) (myNumber otherNumber : byte) (w : World) :
  (exists raw, game = OtherGame raw)
  \/ exists c,
       runMicrogame game myNumber otherNumber w =
       Ret GameTied (mkWorld (score w) (millis (trace w)) (trace w) (calls w ++ [c])).
Proof.
  destruct game; try (right; eexists; reflexivity).
  left; eexists; reflexivity.
Qed.

Lemma setAllLEDs_run (value : Level) (w : World) :
  setAllLEDs value w =
  Ret tt (mkWorld (score w) (millisAtGameStart w)
            (trace w ++
             [ DigitalWrite (fourBitLEDs 0) value; DigitalWrite (fourBitLEDs 1) value;
               DigitalWrite (fourBitLEDs 2) value; DigitalWrite (fourBitLEDs 3) value;
               DigitalWrite whiteLED value; DigitalWrite analogLED value ])
            (calls w)).
Proof.
  cbv [setAllLEDs forLoop digitalWrite emit bind ret score millisAtGameStart trace calls].
  now rewrite <- !app_assoc.
Qed.

(** A turn of [loop] on a known game does reach the score logic: the LEDs
    are cleared, the tone is stopped, the servo is commanded with the score
    (a tie changes nothing) and the turn returns. *)
Lemma loop_known_game_reaches_updateScore
    (game : GameID) (myNumber otherNumber : byte) (w : World) :
  (exists raw, game = OtherGame raw)
  \/ exists w' rest,
       loop game myNumber otherNumber w = Ret tt w'
       /\ trace w' =
          trace w ++
          [ DigitalWrite (fourBitLEDs 0) LOW; DigitalWrite (fourBitLEDs 1) LOW;
            DigitalWrite (fourBitLEDs 2) LOW; DigitalWrite (fourBitLEDs 3) LOW;
            DigitalWrite whiteLED LOW; DigitalWrite analogLED LOW; NoTone piezo ]
          ++ servoCommand (score w) ++ rest.
Proof.
  destruct (runMicrogame_known_game game myNumber otherNumber w) as [Hu|[c Hc]];
    [left; exact Hu|right].
  unfold loop. unfold bind at 1. rewrite Hc.
  unfold bind at 1. rewrite setAllLEDs_run.
  unfold bind at 1. unfold noTone at 1, emit at 1. cbn [score millisAtGameStart trace calls].
  unfold bind. rewrite updateScore_run. cbn [score deltaTable].
  rewrite <- app_assoc. cbn [app].
  match goal with
  | |- context [flashHigherPlayersLED _ _ ?v] =>
      destruct (flashHigherPlayersLED_run myNumber otherNumber v) as [added Hadded];
      destruct (afterRound_trace
                  (mkWorld (score w) (millis (trace w))
                     (trace w ++
                      [ DigitalWrite (fourBitLEDs 0) LOW; DigitalWrite (fourBitLEDs 1) LOW;
                        DigitalWrite (fourBitLEDs 2) LOW; DigitalWrite (fourBitLEDs 3) LOW;
                        DigitalWrite whiteLED LOW; DigitalWrite analogLED LOW; NoTone piezo ])
                     (calls w ++ [c])) (score w + 0)) as [rest Hrest]
  end.
  rewrite Hadded. eexists. exists (rest ++ added).
  split; [reflexivity|]. cbn [trace]. rewrite Hrest. cbn [trace].
  rewrite Z.add_0_r. rewrite <- !app_assoc. reflexivity.
Qed.

(** ** The four-bit LED bank *)

Lemma pinLevel_app (pin : Pin) (events later : list Event) :
  forall start,
    pinLevel pin start (events ++ later) = pinLevel pin (pinLevel pin start events) later.
Proof.
  induction events as [|e events IH]; intros start; [reflexivity|].
  destruct e; cbn [app pinLevel]; apply IH.
Qed.

Lemma masked_bit_level (value i : Z) :
  levelOf (Z.land (Z.shiftr value i) 1) = if Z.testbit value i then HIGH else LOW.
Proof.
  unfold levelOf.
  change 1 with (Z.ones 1) at 1. rewrite Z.land_ones by lia.
  change (2 ^ 1) with 2. rewrite Zmod_odd, Z.testbit_odd.
  destruct (Z.odd (Z.shiftr value i)); reflexivity.
Qed.

Lemma masked_bit_value (value i : Z) :
  0 <= i ->
  bitOf (levelOf (Z.land (Z.shiftr value i) 1)) = (value / 2 ^ i) mod 2.
Proof.
  intros Hi. rewrite masked_bit_level, Z.testbit_odd, Z.shiftr_div_pow2 by exact Hi.
  rewrite Zmod_odd. destruct (Z.odd (value / 2 ^ i)); reflexivity.
Qed.

Lemma setFourBitLEDs_run (value : Z) (w : World) :
  setFourBitLEDs value w =
  Ret tt (mkWorld (score w) (millisAtGameStart w)
            (trace w ++
             [ DigitalWrite (fourBitLEDs 0) (levelOf (Z.land (Z.shiftr value 3) 1));
               DigitalWrite (fourBitLEDs 1) (levelOf (Z.land (Z.shiftr value 2) 1));
               DigitalWrite (fourBitLEDs 2) (levelOf (Z.land (Z.shiftr value 1) 1));
               DigitalWrite (fourBitLEDs 3) (levelOf (Z.land (Z.shiftr value 0) 1)) ])
            (calls w)).
Proof.
  cbv [setFourBitLEDs forLoop digitalWrite emit bind ret
       score millisAtGameStart trace calls].
  rewrite <- !app_assoc. reflexivity.
Qed.

(** X1.  [setFourBitLEDs] shows the low four bits of its argument on the
    bank, most significant bit on [fourBitLEDs 0], whatever the LEDs showed
    before: LED [i] is on exactly when bit [3 - i] is set, the number read
    back off the bank is the argument modulo 16, and neither the white nor
    the analog LED nor the score is touched. *)
Theorem setFourBitLEDs_shows_low_four_bits (value : Z) (w : World) (start : Level) :
  exists w',
    setFourBitLEDs value w = Ret tt w'
    /\ score w' = score w
    /\ calls w' = calls w
    /\ pinLevel (fourBitLEDs 0) start (trace w') = (if Z.testbit value 3 then HIGH else LOW)
    /\ pinLevel (fourBitLEDs 1) start (trace w') = (if Z.testbit value 2 then HIGH else LOW)
    /\ pinLevel (fourBitLEDs 2) start (trace w') = (if Z.testbit value 1 then HIGH else LOW)
    /\ pinLevel (fourBitLEDs 3) start (trace w') = (if Z.testbit value 0 then HIGH else LOW)
    /\ shownNumber (trace w') = value mod 16
    /\ pinLevel whiteLED start (trace w') = pinLevel whiteLED start (trace w)
    /\ pinLevel analogLED start (trace w') = pinLevel analogLED start (trace w).
Proof.
  eexists. split; [apply setFourBitLEDs_run|].
  cbn [score calls trace]. unfold shownNumber.
  rewrite !pinLevel_app. cbn [pinLevel pinEqb Nat.eqb].
  split; [reflexivity|]. split; [reflexivity|].
  do 4 (split; [apply masked_bit_level|]).
  split; [|split; reflexivity].
  rewrite !masked_bit_value by lia.
  change (2 ^ 3) with 8. change (2 ^ 2) with 4. change (2 ^ 1) with 2. change (2 ^ 0) with 1.
  Z.div_mod_to_equations. lia.
Qed.

(** ** Whole turns of [loop] *)

Lemma totalDelay_app (events later : list Event) :
  totalDelay (events ++ later) = totalDelay events + totalDelay later.
Proof.
  induction events as [|e events IH]; [reflexivity|].
  destruct e; cbn [app totalDelay]; rewrite IH; lia.
Qed.

Lemma countVictories_app (didWin : bool) (log later : list Call) :
  countVictories didWin (log ++ later) =
  (countVictories didWin log + countVictories didWin later)%nat.
Proof.
  induction log as [|c log IH]; [reflexivity|].
  destruct c; cbn [app countVictories]; try exact IH.
  destruct (Bool.eqb didWin0 didWin); cbn; rewrite IH; reflexivity.
Qed.

Lemma flashHigherPlayersLED_exact (myNumber otherNumber : byte) (w : World) :
  flashHigherPlayersLED myNumber otherNumber w =
  Ret tt (mkWorld (score w) (millisAtGameStart w)
            (trace w ++ roundEndSignal myNumber otherNumber) (calls w)).
Proof.
  unfold flashHigherPlayersLED, roundEndSignal.
  destruct (byteGe myNumber otherNumber).
  - cbv [forLoop digitalWrite delay emit bind ret
         score millisAtGameStart trace calls threeFlashes].
    rewrite <- !app_assoc. reflexivity.
  - reflexivity.
Qed.

Lemma roundEndSignal_delay (myNumber otherNumber : byte) :
  totalDelay (roundEndSignal myNumber otherNumber) = 1500.
Proof. unfold roundEndSignal. destruct (byteGe myNumber otherNumber); reflexivity. Qed.

Lemma runMicrogame_known_run (game : GameID) (myNumber otherNumber : byte) (w : World) :
  isKnownGame game = true ->
  exists c,
    (forall didWin, countVictories didWin [c] = 0%nat)
    /\ runMicrogame game myNumber otherNumber w =
       Ret GameTied (mkWorld (score w) (millis (trace w)) (trace w) (calls w ++ [c])).
Proof.
  intros Hk. destruct game; try discriminate Hk;
    eexists; (split; [|reflexivity]); intros didWin; reflexivity.
Qed.

Lemma loop_known_run (game : GameID) (myNumber otherNumber : byte) (w : World) :
  isKnownGame game = true ->
  exists c,
    (forall didWin, countVictories didWin [c] = 0%nat)
    /\ loop game myNumber otherNumber w =
       flashHigherPlayersLED myNumber otherNumber
         (afterRound (mkWorld (score w) (millis (trace w))
                              (trace w ++ clearedOutputs) (calls w ++ [c]))
                     (score w)).
Proof.
  intros Hk.
  destruct (runMicrogame_known_run game myNumber otherNumber w Hk) as [c [Hc Hrun]].
  exists c. split; [exact Hc|].
  unfold loop. unfold bind at 1. rewrite Hrun.
  unfold bind at 1. rewrite setAllLEDs_run.
  unfold bind at 1. unfold noTone at 1, emit at 1.
  cbn [score millisAtGameStart trace calls].
  unfold bind. rewrite updateScore_run. cbn [score deltaTable].
  rewrite Z.add_0_r. rewrite <- app_assoc. reflexivity.
Qed.

(** X2.  A turn of [loop] on any of the six games returns and leaves all
    six LEDs off, whatever they showed before, whatever the score and the
    two numbers, and whether or not the turn ended in a victory
    sequence. *)
Theorem loop_leaves_every_LED_off
    (game : GameID) (myNumber otherNumber : byte) (w : World) (start : Level) :
  isKnownGame game = true ->
  exists w',
    loop game myNumber otherNumber w = Ret tt w'
    /\ Forall (fun pin => pinLevel pin start (trace w') = LOW) ledPins.
Proof.
  intros Hk.
  destruct (loop_known_run game myNumber otherNumber w Hk) as [c [_ Hrun]].
  rewrite Hrun, flashHigherPlayersLED_exact.
  eexists. split; [reflexivity|].
  cbn [trace]. unfold afterRound, roundEndSignal.
  destruct (score w >=? 80); [|destruct (score w <=? -80)];
    destruct (byteGe myNumber otherNumber); cbn [trace];
    unfold ledPins; repeat apply Forall_cons; try apply Forall_nil;
    rewrite !pinLevel_app;
    cbn [pinLevel pinEqb Nat.eqb clearedOutputs servoCommand victoryCues threeFlashes app];
    reflexivity.
Qed.

Lemma loop_known_in_play (game : GameID) (myNumber otherNumber : byte) (w : World) :
  isKnownGame game = true ->
  inPlay (score w) ->
  exists c,
    (forall didWin, countVictories didWin [c] = 0%nat)
    /\ loop game myNumber otherNumber w =
       Ret tt (mkWorld (score w) (millis (trace w))
                 (trace w ++ clearedOutputs ++ servoCommand (score w)
                          ++ roundEndSignal myNumber otherNumber)
                 (calls w ++ [c])).
Proof.
  intros Hk Hw.
  destruct (loop_known_run game myNumber otherNumber w Hk) as [c [Hc Hrun]].
  exists c. split; [exact Hc|].
  rewrite Hrun, afterRound_quiet by exact Hw.
  rewrite flashHigherPlayersLED_exact. cbn [score millisAtGameStart trace calls].
  rewrite <- !app_assoc. reflexivity.
Qed.

(** X3.  With the microgames as they stand (each reports a tie), no run of
    rounds on known games ever moves the score or enters [handleVictory].
    A round is taken from the call of the dispatcher to the end of the turn
    of [loop], with the game and the two numbers as delivered to it: from a
    score in play every such round returns, enters one microgame, and
    leaves the score where it was. *)
Theorem turns_of_stub_games_keep_score
    (schedule : list (GameID * byte * byte)) (w : World) :
  forallb (fun turn => isKnownGame (fst (fst turn))) schedule = true ->
  inPlay (score w) ->
  exists w',
    turns schedule w = Ret tt w'
    /\ score w' = score w
    /\ countVictories true (calls w') = countVictories true (calls w)
    /\ countVictories false (calls w') = countVictories false (calls w)
    /\ length (calls w') = (length (calls w) + length schedule)%nat.
Proof.
  revert w.
  induction schedule as [|[[game myNumber] otherNumber] rest IH]; intros w Hk Hw.
  - exists w. cbn. repeat split; lia.
  - cbn [forallb fst] in Hk. apply andb_true_iff in Hk. destruct Hk as [Hg Hrest].
    destruct (loop_known_in_play game myNumber otherNumber w Hg Hw) as [c [Hc Hrun]].
    cbn [turns]. unfold bind. rewrite Hrun.
    match goal with
    | |- context [turns rest ?v] => destruct (IH v Hrest Hw) as [w' [Ht [Hs [Hv1 [Hv2 Hl]]]]]
    end.
    exists w'. split; [exact Ht|].
    cbn [score calls trace] in *.
    rewrite countVictories_app, Hc in Hv1, Hv2.
    rewrite length_app in Hl. cbn [length] in *.
    repeat split; lia.
Qed.


(** ** Two boards *)

Lemma servoPosition_opposite (s : Z) : servoPosition (- s) = 180 - servoPosition s.
Proof. rewrite !servoPosition_shift, !constrain_clamps. lia. Qed.

Lemma mirrored_rounds (results : list GameResult) :
  forall a b,
    score b = - score a ->
    countVictories true (calls a) = countVictories false (calls b) ->
    countVictories false (calls a) = countVictories true (calls b) ->
    let a' := worldOf (updateScores results a) in
    let b' := worldOf (updateScores (List.map mirror results) b) in
    score b' = - score a'
    /\ countVictories true (calls a') = countVictories false (calls b')
    /\ countVictories false (calls a') = countVictories true (calls b').
Proof.
  induction results as [|result rest IH]; intros a b Hs Ht Hf.
  - cbn. auto.
  - cbn [List.map updateScores]. unfold bind.
    rewrite !updateScore_run, mirror_delta, Hs.
    apply IH.
    + rewrite !afterRound_score.
      destruct (Z.geb_spec (score a + deltaTable result) 80);
        destruct (Z.leb_spec (score a + deltaTable result) (-80));
        destruct (Z.geb_spec (- score a + - deltaTable result) 80);
        destruct (Z.leb_spec (- score a + - deltaTable result) (-80)); cbn; lia.
    + unfold afterRound.
      destruct (Z.geb_spec (score a + deltaTable result) 80);
        destruct (Z.leb_spec (score a + deltaTable result) (-80));
        destruct (Z.geb_spec (- score a + - deltaTable result) 80);
        destruct (Z.leb_spec (- score a + - deltaTable result) (-80));
        try lia; cbn [calls]; rewrite ?countVictories_app; cbn; lia.
    + unfold afterRound.
      destruct (Z.geb_spec (score a + deltaTable result) 80);
        destruct (Z.leb_spec (score a + deltaTable result) (-80));
        destruct (Z.geb_spec (- score a + - deltaTable result) 80);
        destruct (Z.leb_spec (- score a + - deltaTable result) (-80));
        try lia; cbn [calls]; rewrite ?countVictories_app; cbn; lia.
Qed.

(** X5.  Two boards that start with opposite scores and are fed mirrored
    results round after round keep opposite scores; whenever one enters
    [handleVictory true] the other enters [handleVictory false] in the same
    round; and their score meters always point to positions that add up to
    180. *)
Theorem mirrored_boards_stay_opposite (results : list GameResult) (s : Z) :
  let a := worldOf (updateScores results (mkWorld s 0 [] [])) in
  let b := worldOf (updateScores (List.map mirror results) (mkWorld (- s) 0 [] [])) in
  score b = - score a
  /\ countVictories true (calls a) = countVictories false (calls b)
  /\ countVictories false (calls a) = countVictories true (calls b)
  /\ servoPosition (score b) = 180 - servoPosition (score a)
  /\ (forall n, servoPosition (- n) = 180 - servoPosition n).
Proof.
  intros a b.
  destruct (mirrored_rounds results (mkWorld s 0 [] []) (mkWorld (- s) 0 [] []))
    as [Hs [Ht Hf]]; try reflexivity.
  fold a in Hs, Ht, Hf. fold b in Hs, Ht, Hf.
  split; [exact Hs|]. split; [exact Ht|]. split; [exact Hf|].
  split; [rewrite Hs; apply servoPosition_opposite|apply servoPosition_opposite].
Qed.

(** X6.  The score meter is monotone: a higher score never moves the servo
    to a lower position. *)
Theorem servoPosition_monotone (s1 s2 : Z) :
  s1 <= s2 -> servoPosition s1 <= servoPosition s2.
Proof.
  intros H. rewrite !servoPosition_shift, !constrain_clamps. lia.
Qed.

(** ** Machine integers *)

Lemma updateScores_returns_in_play (results : list GameResult) :
  forall w, inPlay (score w) ->
            exists w', updateScores results w = Ret tt w' /\ inPlay (score w').
Proof.
  induction results as [|result rest IH]; intros w Hw.
  - exists w. split; [reflexivity|exact Hw].
  - cbn [updateScores]. unfold bind. rewrite updateScore_run.
    apply IH. apply afterRound_in_play.
Qed.

(** At the start of a round the score is strictly between the thresholds
    (the lemma above); with point constants of any sensible size the sum
    [updateScore] computes is then far inside the range of an [int]. *)
Lemma updateScore_no_int_overflow (result : GameResult) (w : World) :
  inPlay (score w) ->
  -32000 <= correctAttackPoints <= 32000 ->
  -32000 <= incorrectAttackPoints <= 32000 ->
  -32000 <= correctDodgePoints <= 32000 ->
  -32000 <= incorrectDodgePoints <= 32000 ->
  fitsInt (deltaTable result) /\ fitsInt (score w + deltaTable result).
Proof.
  unfold inPlay, fitsInt. intros Hw H1 H2 H3 H4.
  destruct result; cbn [deltaTable]; lia.
Qed.

(** X7.  With point constants of at most 32000 in absolute value, no round
    of any run started with the score in play takes the score out of the
    range of a 16 bit [int]: whatever rounds were played before, the sum the
    next round computes fits. *)
Theorem score_never_overflows_int
    (before : list GameResult) (result : GameResult) (w : World) :
  inPlay (score w) ->
  -32000 <= correctAttackPoints <= 32000 ->
  -32000 <= incorrectAttackPoints <= 32000 ->
  -32000 <= correctDodgePoints <= 32000 ->
  -32000 <= incorrectDodgePoints <= 32000 ->
  exists w1,
    updateScores before w = Ret tt w1
    /\ fitsInt (score w1)
    /\ fitsInt (score w1 + deltaTable result).
Proof.
  intros Hw H1 H2 H3 H4.
  destruct (updateScores_returns_in_play before w Hw) as [w1 [Hrun Hin]].
  exists w1. split; [exact Hrun|].
  destruct (updateScore_no_int_overflow result w1 Hin H1 H2 H3 H4) as [_ Hfit].
  split; [|exact Hfit].
  unfold inPlay in Hin. unfold fitsInt. lia.
Qed.

Lemma deltaTable_bounded (limit : Z) (result : GameResult) :
  Z.abs correctAttackPoints <= limit ->
  Z.abs incorrectAttackPoints <= limit ->
  Z.abs correctDodgePoints <= limit ->
  Z.abs incorrectDodgePoints <= limit ->
  Z.abs (deltaTable result) <= limit.
Proof. intros H1 H2 H3 H4. destruct result; cbn [deltaTable]; lia. Qed.

Lemma updateScores_below_threshold (limit : Z) (results : list GameResult) :
  Z.abs correctAttackPoints <= limit ->
  Z.abs incorrectAttackPoints <= limit ->
  Z.abs correctDodgePoints <= limit ->
  Z.abs incorrectDodgePoints <= limit ->
  forall w,
    Z.abs (score w) + Z.of_nat (length results) * limit < 80 ->
    exists w',
      updateScores results w = Ret tt w'
      /\ score w' = score w + totalDelta results
      /\ calls w' = calls w.
Proof.
  intros H1 H2 H3 H4.
  induction results as [|result rest IH]; intros w Hw.
  - exists w. cbn. repeat split. lia.
  - pose proof (deltaTable_bounded limit result H1 H2 H3 H4) as Hd.
    assert (0 <= limit) by lia.
    cbn [length] in Hw. rewrite Nat2Z.inj_succ in Hw.
    cbn [updateScores]. unfold bind. rewrite updateScore_run.
    rewrite afterRound_quiet by (unfold inPlay; nia).
    match goal with
    | |- context [updateScores rest ?v] => destruct (IH v) as [w' [Hrun [Hs Hc]]]
    end.
    + cbn [score]. nia.
    + exists w'. cbn [score calls totalDelta] in *.
      split; [exact Hrun|]. split; [lia|exact Hc].
Qed.

(** X15.  A session cannot end early.  When no point constant exceeds
    [limit] in absolute value, a run of rounds from a fresh session that is
    shorter than 80 / [limit] never enters [handleVictory], and the score
    after it is the plain sum of the rounds' deltas. *)
Theorem short_runs_never_end_the_session (limit : Z) (results : list GameResult) :
  Z.abs correctAttackPoints <= limit ->
  Z.abs incorrectAttackPoints <= limit ->
  Z.abs correctDodgePoints <= limit ->
  Z.abs incorrectDodgePoints <= limit ->
  Z.of_nat (length results) * limit < 80 ->
  exists w',
    updateScores results freshWorld = Ret tt w'
    /\ score w' = totalDelta results
    /\ calls w' = [].
Proof.
  intros H1 H2 H3 H4 Hlen.
  destruct (updateScores_below_threshold limit results H1 H2 H3 H4 freshWorld)
    as [w' [Hrun [Hs Hc]]].
  - cbn [score freshWorld]. lia.
  - exists w'. cbn [score calls freshWorld] in *.
    split; [exact Hrun|]. split; [lia|exact Hc].
Qed.

End Firmware.

(** ** Concrete runs *)

(** Four correct attacks worth 20 points each, from a fresh session: the
    running totals 0, 20, 40, 60 are in play, the total is 80, and the run
    ends with one victory for the local side and the score at 0. *)
Lemma updateScore_declares_one_victory_witness :
  let results := [CorrectAttack; CorrectAttack; CorrectAttack; CorrectAttack] in
  (forall k, (k < length results)%nat ->
             inPlay (totalDelta 20 10 10 5 (firstn k results)))
  /\ 80 <= totalDelta 20 10 10 5 results
  /\ exists w',
       updateScores 20 10 10 5 results freshWorld = Ret tt w'
       /\ calls w' = [CallHandleVictory true]
       /\ countVictories true (calls w') = 1%nat
       /\ countVictories false (calls w') = 0%nat
       /\ score w' = 0.
Proof.
  intros results.
  assert (Hprefix : forall k, (k < length results)%nat ->
                              inPlay (totalDelta 20 10 10 5 (firstn k results))).
  { intros k Hk. unfold inPlay.
    do 4 (destruct k as [|k]; [cbn; lia|]).
    cbn in Hk. lia. }
  assert (Htotal : 80 <= totalDelta 20 10 10 5 results) by (cbn; lia).
  split; [exact Hprefix|]. split; [exact Htotal|].
  exact (proj2 (updateScore_declares_one_victory 20 10 10 5) results Hprefix Htotal).
Defined.

(** C2, as first stated, fails.  Eight correct attacks worth 20 points each
    sum to 160, which is at least 80; yet [handleVictory true] is entered
    twice, after the fourth and after the eighth round. *)
Lemma updateScores_sum_above_threshold_two_victories :
  let results := repeat CorrectAttack 8 in
  let w' := worldOf (updateScores 20 10 10 5 results freshWorld) in
  ~ (80 <= totalDelta 20 10 10 5 results ->
     countVictories true (calls w') = 1%nat /\ score w' = 0).
Proof.
  intros results w' H.
  assert (Htotal : 80 <= totalDelta 20 10 10 5 results) by (vm_compute; discriminate).
  destruct (H Htotal) as [Hcount _].
  vm_compute in Hcount. discriminate Hcount.
Qed.

(** The scenario of a score of 70 and a correct attack worth 20 points: the
    servo is driven to 170 (90 clamped to 80), the victory sequence runs
    with [true], and the score is 0 afterwards. *)
Example correct_attack_from_70 :
  updateScore 20 10 10 5 CorrectAttack (mkWorld 70 0 [] []) =
  Ret tt (mkWorld 0 0
            ([ServoWrite 170; Delay 200] ++ victoryCues ++ [ServoWrite 90; Delay 200])
            [CallHandleVictory true]).
Proof. reflexivity. Qed.

Example attacked_from_minus_70 :
  updateScore 20 10 10 5 WasCorrectlyAttacked (mkWorld (-70) 0 [] []) =
  Ret tt (mkWorld 0 0
            ([ServoWrite 10; Delay 200] ++ victoryCues ++ [ServoWrite 90; Delay 200])
            [CallHandleVictory false]).
Proof. reflexivity. Qed.

Example tie_changes_nothing :
  updateScore 20 10 10 5 GameTied (mkWorld 35 0 [] []) =
  Ret tt (mkWorld 35 0 [ServoWrite 125; Delay 200] []).
Proof. reflexivity. Qed.

Example servoPosition_far_out :
  servoPosition (-200) = 10 /\ servoPosition 200 = 170 /\ servoPosition 37 = 127.
Proof. repeat split. Qed.

Example lower_number_only_waits :
  flashHigherPlayersLED x03 x05 freshWorld =
  Ret tt (mkWorld 0 0 [Delay 1500] []).
Proof. reflexivity. Qed.

Example unknown_game_stops_the_turn :
  loop 20 10 10 5 (fun _ => 1234) (OtherGame 42) x03 x05 freshWorld =
  Halt (mkWorld 0 1234 [] [CallHandleCommunicationError]).
Proof. reflexivity. Qed.

(** ** The fading status LED *)

Lemma fadeStatusLED_range (f : Fade) :
  0 <= fadeValue f <= 255 ->
  1 <= fadeValue (snd (fadeStatusLED f)) <= 255.
Proof.
  intros Hf. unfold fadeStatusLED. cbn [snd].
  destruct (isGoingUpwards f).
  - pose proof (Z.mod_pos_bound (fadeValue f * 2) 256 ltac:(lia)) as Hm.
    destruct (Z.eqb_spec ((fadeValue f * 2) mod 256) 0); cbn [fadeValue]; lia.
  - rewrite Z.quot_div_nonneg by lia.
    pose proof (Z.div_pos (fadeValue f) 2 ltac:(lia) ltac:(lia)) as Hd.
    assert (fadeValue f / 2 <= 255) by (apply Z.div_le_upper_bound; lia).
    destruct (Z.eqb_spec (fadeValue f / 2) 0); cbn [fadeValue]; lia.
Qed.

(** X8.  Once the brightness is at least 1 the status LED is never written
    dark: however often [fadeStatusLED] is called, every brightness it hands
    to [analogWrite] is between 1 and 255, and so is the value it leaves in
    [fadeValue]. *)
Theorem fade_never_dark (n : nat) (f : Fade) :
  1 <= fadeValue f <= 255 ->
  Forall (fun written => 1 <= written <= 255) (fadeWrites n f)
  /\ 1 <= fadeValue (fadeSteps n f) <= 255.
Proof.
  revert f. induction n as [|n IH]; intros f Hf.
  - split; [constructor|exact Hf].
  - cbn [fadeWrites fadeSteps].
    destruct (IH (snd (fadeStatusLED f))) as [Hw Hs].
    + apply fadeStatusLED_range. lia.
    + split; [|exact Hs]. constructor; [exact Hf|exact Hw].
Qed.

Lemma fadeEqb_eq (f g : Fade) : fadeEqb f g = true -> f = g.
Proof.
  destruct f as [v u], g as [v' u']. unfold fadeEqb. cbn [fadeValue isGoingUpwards].
  intros H. apply andb_true_iff in H. destruct H as [Hv Hu].
  apply Z.eqb_eq in Hv. apply Bool.eqb_prop in Hu. now subst.
Qed.

Lemma meetsInitialFade_sound (n : nat) :
  forall f, meetsInitialFade n f = true ->
            exists k, (k <= n)%nat /\ fadeSteps k f = initialFade.
Proof.
  induction n as [|n IH]; intros f H; cbn [meetsInitialFade] in H;
    apply orb_true_iff in H; destruct H as [H|H].
  - exists 0%nat. split; [lia|]. now apply fadeEqb_eq.
  - discriminate H.
  - exists 0%nat. split; [lia|]. now apply fadeEqb_eq.
  - destruct (IH _ H) as [k [Hk Hs]]. exists (S k). split; [lia|exact Hs].
Qed.

Lemma every_byte_meets_initialFade :
  forallb (fun n => meetsInitialFade 16 (mkFade (Z.of_nat n) true)
                    && meetsInitialFade 16 (mkFade (Z.of_nat n) false))
          (seq 0 256) = true.
Proof. vm_compute. reflexivity. Qed.

(** X9.  From every value of the [byte] [fadeValue] and either direction,
    at most 16 calls of [fadeStatusLED] bring the two variables to the
    values the fade starts with (1, going upwards). *)
Theorem fade_reaches_start_within_16 (f : Fade) :
  0 <= fadeValue f <= 255 ->
  exists k, (k <= 16)%nat /\ fadeSteps k f = initialFade.
Proof.
  intros Hf. destruct f as [v up]. cbn [fadeValue] in Hf.
  pose proof every_byte_meets_initialFade as Hall.
  rewrite forallb_forall in Hall.
  specialize (Hall (Z.to_nat v)).
  rewrite Z2Nat.id in Hall by lia.
  assert (Hin : In (Z.to_nat v) (seq 0 256)) by (apply in_seq; lia).
  apply Hall in Hin. apply andb_true_iff in Hin. destruct Hin as [Hup Hdown].
  apply meetsInitialFade_sound. destruct up; assumption.
Qed.

(** X10.  From its starting values the fade is periodic with period 16: 16
    calls write the brightnesses 1, 2, 4, ..., 128, 255, 127, 63, ..., 3, 1
    and leave the two variables as they were, so the calls after them write
    what the calls from the start would. *)
Theorem fade_has_period_16 (n : nat) :
  fadeSteps (16 + n) initialFade = fadeSteps n initialFade
  /\ fadeWrites (16 + n) initialFade = fadeCycle ++ fadeWrites n initialFade.
Proof. split; reflexivity. Qed.

(** X11.  The handshake loop runs to the first successful [tryHandshake]:
    after [n] failures and a success it has called [fadeStatusLED] [n + 1]
    times and stops, whatever answers would have come later; and while the
    answers are all failures it does not end. *)
Theorem awaitHandshake_ends_at_first_success (n : nat) (later : list bool) (f : Fade) :
  awaitHandshake (repeat false n ++ true :: later) f =
    Some (fadeWrites (S n) f, fadeSteps (S n) f)
  /\ awaitHandshake (repeat false n) f = None.
Proof.
  revert f. induction n as [|n IH]; intros f.
  - split; [|reflexivity].
    cbn [repeat app awaitHandshake fadeWrites fadeSteps].
    destruct (fadeStatusLED f) as [written f']. reflexivity.
  - destruct (IH (snd (fadeStatusLED f))) as [Hdone Hnever].
    cbn [repeat app awaitHandshake].
    destruct (fadeStatusLED f) as [written f'] eqn:E. cbn [snd] in Hdone, Hnever.
    rewrite Hdone, Hnever. split; [|reflexivity].
    cbn [fadeWrites fadeSteps]. rewrite E. reflexivity.
Qed.

(** ** The button interrupts *)

Lemma fallingEdges_detached (edges : list (Pin * Z)) :
  forall b, lowerVector b = None -> higherVector b = None -> fallingEdges edges b = b.
Proof.
  induction edges as [|[pin now] rest IH]; intros b Hl Hh; [reflexivity|].
  cbn [fallingEdges].
  assert (E : fallingEdge pin now b = b)
    by (destruct pin; cbn [fallingEdge]; rewrite ?Hl, ?Hh; reflexivity).
  rewrite E. now apply IH.
Qed.

(** X12.  After [enableInterrupts] only the first press counts.  The first
    falling edge on a button sets that button's flag, clears the other's,
    records the time of that edge and detaches both routines; every later
    edge, on either button, changes nothing. *)
Theorem first_press_wins (b : Buttons) (now : Z) (later : list (Pin * Z)) :
  fallingEdges ((lowerButton, now) :: later) (enableInterrupts b) =
    mkButtons true false now None None
  /\ fallingEdges ((higherButton, now) :: later) (enableInterrupts b) =
    mkButtons false true now None None.
Proof.
  split; cbn [fallingEdges]; apply fallingEdges_detached; reflexivity.
Qed.

(** X13.  The two flags are never both set by the routines: if they are not
    both set to begin with, they are not both set after any run of falling
    edges, with the routines attached or not. *)
Theorem flags_never_both_set (edges : list (Pin * Z)) (b : Buttons) :
  lowerButtonPressed b && higherButtonPressed b = false ->
  lowerButtonPressed (fallingEdges edges b) && higherButtonPressed (fallingEdges edges b) = false.
Proof.
  revert b. induction edges as [|[pin now] rest IH]; intros b Hb; [exact Hb|].
  cbn [fallingEdges]. apply IH.
  destruct pin; cbn [fallingEdge]; try exact Hb.
  - destruct (lowerVector b) as [[]|]; [reflexivity|reflexivity|exact Hb].
  - destruct (higherVector b) as [[]|]; [reflexivity|reflexivity|exact Hb].
Qed.

(** ** Round-end signalling on the two boards *)

(** X14.  The two boards call [flashHigherPlayersLED] with the two numbers
    swapped.  When the numbers differ exactly one of them flashes its white
    LED (three times), the one with the higher number; when they are equal
    both do. *)
Theorem one_board_flashes_unless_tied (myNumber otherNumber : byte) (mine theirs : World) :
  exists here there,
    flashHigherPlayersLED myNumber otherNumber mine =
      Ret tt (mkWorld (score mine) (millisAtGameStart mine) (trace mine ++ here) (calls mine))
    /\ flashHigherPlayersLED otherNumber myNumber theirs =
      Ret tt (mkWorld (score theirs) (millisAtGameStart theirs) (trace theirs ++ there)
                      (calls theirs))
    /\ countFlashes here =
       (if (Byte.to_N otherNumber <=? Byte.to_N myNumber)%N then 3%nat else 0%nat)
    /\ (countFlashes here + countFlashes there)%nat =
       (if (Byte.to_N myNumber =? Byte.to_N otherNumber)%N then 6%nat else 3%nat).
Proof.
  exists (roundEndSignal myNumber otherNumber), (roundEndSignal otherNumber myNumber).
  split; [apply flashHigherPlayersLED_exact|].
  split; [apply flashHigherPlayersLED_exact|].
  unfold roundEndSignal, byteGe.
  destruct (N.leb_spec (Byte.to_N otherNumber) (Byte.to_N myNumber));
    destruct (N.leb_spec (Byte.to_N myNumber) (Byte.to_N otherNumber));
    destruct (N.eqb_spec (Byte.to_N myNumber) (Byte.to_N otherNumber));
    try lia; split; reflexivity.
Qed.

(** ** Concrete runs of the properties above *)

Lemma loop_leaves_every_LED_off_witness :
  isKnownGame LEDNumber = true
  /\ exists w',
       loop 20 10 10 5 (fun _ => 0) LEDNumber x03 x05 (mkWorld 70 0 [] []) = Ret tt w'
       /\ Forall (fun pin => pinLevel pin HIGH (trace w') = LOW) ledPins.
Proof.
  split; [reflexivity|].
  exact (loop_leaves_every_LED_off 20 10 10 5 (fun _ => 0)
           LEDNumber x03 x05 (mkWorld 70 0 [] []) HIGH eq_refl).
Defined.

Lemma turns_of_stub_games_keep_score_witness :
  let schedule := [(PiezoPitch, x03, x05); (LDRCover, x07, x07)] in
  let w := mkWorld 35 0 [] [] in
  forallb (fun turn => isKnownGame (fst (fst turn))) schedule = true
  /\ inPlay (score w)
  /\ exists w',
       turns 20 10 10 5 (fun _ => 0) schedule w = Ret tt w'
       /\ score w' = score w
       /\ countVictories true (calls w') = countVictories true (calls w)
       /\ countVictories false (calls w') = countVictories false (calls w)
       /\ length (calls w') = (length (calls w) + length schedule)%nat.
Proof.
  intros schedule w.
  assert (Hk : forallb (fun turn => isKnownGame (fst (fst turn))) schedule = true)
    by reflexivity.
  assert (Hw : inPlay (score w)) by (unfold inPlay; cbn; lia).
  split; [exact Hk|]. split; [exact Hw|].
  exact (turns_of_stub_games_keep_score 20 10 10 5 (fun _ => 0) schedule w Hk Hw).
Defined.


Lemma servoPosition_monotone_witness :
  -100 <= 30 /\ servoPosition (-100) <= servoPosition 30.
Proof.
  assert (H : -100 <= 30) by lia.
  split; [exact H|exact (servoPosition_monotone (-100) 30 H)].
Defined.

Lemma score_never_overflows_int_witness :
  let before := [CorrectAttack; CorrectAttack; IncorrectDodge] in
  inPlay (score freshWorld)
  /\ -32000 <= 20 <= 32000
  /\ -32000 <= 10 <= 32000
  /\ -32000 <= 10 <= 32000
  /\ -32000 <= 5 <= 32000
  /\ exists w1,
       updateScores 20 10 10 5 before freshWorld = Ret tt w1
       /\ fitsInt (score w1)
       /\ fitsInt (score w1 + deltaTable 20 10 10 5 CorrectAttack).
Proof.
  intros before.
  assert (Hw : inPlay (score freshWorld)) by (unfold inPlay; cbn; lia).
  assert (H1 : -32000 <= 20 <= 32000) by lia.
  assert (H2 : -32000 <= 10 <= 32000) by lia.
  assert (H4 : -32000 <= 5 <= 32000) by lia.
  split; [exact Hw|]. split; [exact H1|]. split; [exact H2|]. split; [exact H2|].
  split; [exact H4|].
  exact (score_never_overflows_int 20 10 10 5 before CorrectAttack freshWorld Hw H1 H2 H2 H4).
Defined.

Lemma short_runs_never_end_the_session_witness :
  let results := [CorrectAttack; WasIncorrectlyDodged; CorrectAttack] in
  Z.abs 20 <= 20
  /\ Z.abs 10 <= 20
  /\ Z.abs 10 <= 20
  /\ Z.abs 5 <= 20
  /\ Z.of_nat (length results) * 20 < 80
  /\ exists w',
       updateScores 20 10 10 5 results freshWorld = Ret tt w'
       /\ score w' = totalDelta 20 10 10 5 results
       /\ calls w' = [].
Proof.
  intros results.
  assert (H1 : Z.abs 20 <= 20) by (cbn; lia).
  assert (H2 : Z.abs 10 <= 20) by (cbn; lia).
  assert (H4 : Z.abs 5 <= 20) by (cbn; lia).
  assert (Hl : Z.of_nat (length results) * 20 < 80) by (cbn; lia).
  split; [exact H1|]. split; [exact H2|]. split; [exact H2|]. split; [exact H4|].
  split; [exact Hl|].
  exact (short_runs_never_end_the_session 20 10 10 5 20 results H1 H2 H2 H4 Hl).
Defined.

Lemma fade_never_dark_witness :
  1 <= fadeValue initialFade <= 255
  /\ Forall (fun written => 1 <= written <= 255) (fadeWrites 20 initialFade)
  /\ 1 <= fadeValue (fadeSteps 20 initialFade) <= 255.
Proof.
  assert (H : 1 <= fadeValue initialFade <= 255) by (cbn; lia).
  split; [exact H|exact (fade_never_dark 20 initialFade H)].
Defined.

Lemma fade_reaches_start_within_16_witness :
  0 <= fadeValue (mkFade 200 true) <= 255
  /\ exists k, (k <= 16)%nat /\ fadeSteps k (mkFade 200 true) = initialFade.
Proof.
  assert (H : 0 <= fadeValue (mkFade 200 true) <= 255) by (cbn; lia).
  split; [exact H|exact (fade_reaches_start_within_16 (mkFade 200 true) H)].
Defined.

Lemma flags_never_both_set_witness :
  let b := enableInterrupts (mkButtons false false 0 None None) in
  let edges := [(higherButton, 100); (lowerButton, 130); (higherButton, 150)] in
  lowerButtonPressed b && higherButtonPressed b = false
  /\ lowerButtonPressed (fallingEdges edges b) && higherButtonPressed (fallingEdges edges b)
     = false.
Proof.
  intros b edges.
  assert (H : lowerButtonPressed b && higherButtonPressed b = false) by reflexivity.
  split; [exact H|exact (flags_never_both_set edges b H)].
Defined.

Example fade_from_200_upwards :
  fadeWrites 10 (mkFade 200 true) = [200; 144; 32; 64; 128; 255; 127; 63; 31; 15].
Proof. reflexivity. Qed.

Example bank_shows_player_patterns :
  shownNumber (trace (worldOf (setFourBitLEDs 12 freshWorld))) = 12
  /\ shownNumber (trace (worldOf (setFourBitLEDs 3 freshWorld))) = 3
  /\ shownNumber (trace (worldOf (setFourBitLEDs 255 freshWorld))) = 15.
Proof. repeat split. Qed.

Example second_press_is_ignored :
  fallingEdges [(higherButton, 100); (lowerButton, 130)]
    (enableInterrupts (mkButtons false false 0 None None))
  = mkButtons false true 100 None None.
Proof. reflexivity. Qed.
